(** * TextPurify: the undo/redo history hook and the request guard

    A shallow embedding of [hooks/useUndoRedo] (the history buffer with
    immediate and debounced commits) and of the part of [App] that guards the
    asynchronous cleaning request, followed by the properties the
    specification states about them.

    Modelling conventions.
    - One value of [Hook] is the state of one [useUndoRedo] instance between
      two renders: the three [useState] cells and the two [useRef] cells.
    - A call of [undo], [redo], [reset] or [set] is made through the callback
      of the latest render and its state updates are applied before the next
      call; so each call is a function from state to state.
    - A function passed to a state setter (an updater) is run by React at
      the next render, after the function that queued it has returned; a ref
      read inside an updater therefore has the value the caller left in it.
      The only updater that reads a ref is the one of [commitToHistory].
    - [setTimeout] and [Date.now] read a clock.  The clock is an explicit
      argument [now : Z] (milliseconds); a pending timer is the pair of its
      due time and of the value its callback closed over.
    - The generic parameter [T] is compared with [===]; it is a type with
      decidable equality (the application uses strings). *)

From Stdlib Require Import ZArith Lia Ascii String.
From stdpp Require Import base decidable option list strings.

Local Open Scope Z_scope.

(** ** The hook [useUndoRedo] *)

Module UndoRedo.

Section hook.
Context {T : Type} `{EqDecision T}.

(** [interface UndoRedoOptions { debounce?: number }] *)
Record UndoRedoOptions : Type := { debounce : option Z }.

(** What [timeoutRef.current] holds while a timer is pending: when the
    timer is due and the [newValue] its callback closed over. *)
Record Timeout : Type := { due : Z; newValue : T }.

Record Hook : Type := {
  present : T;
  past : list T;
  future : list T;
  lastCommittedRef : T;
  timeoutRef : option Timeout
}.

(** The state setters of React and the assignments to the two refs. *)
Definition setPresent (v : T) (s : Hook) : Hook :=
  {| present := v; past := past s; future := future s;
     lastCommittedRef := lastCommittedRef s; timeoutRef := timeoutRef s |}.

Definition setPast (f : list T -> list T) (s : Hook) : Hook :=
  {| present := present s; past := f (past s); future := future s;
     lastCommittedRef := lastCommittedRef s; timeoutRef := timeoutRef s |}.

Definition setFuture (f : list T -> list T) (s : Hook) : Hook :=
  {| present := present s; past := past s; future := f (future s);
     lastCommittedRef := lastCommittedRef s; timeoutRef := timeoutRef s |}.

Definition setLastCommitted (v : T) (s : Hook) : Hook :=
  {| present := present s; past := past s; future := future s;
     lastCommittedRef := v; timeoutRef := timeoutRef s |}.

Definition setTimeoutRef (t : option Timeout) (s : Hook) : Hook :=
  {| present := present s; past := past s; future := future s;
     lastCommittedRef := lastCommittedRef s; timeoutRef := t |}.

(** [useUndoRedo(initialState, options)]: the first render. *)
Definition useUndoRedo (initialState : T) : Hook :=
  {| present := initialState; past := []; future := [];
     lastCommittedRef := initialState; timeoutRef := None |}.

(** [if (timeoutRef.current) { clearTimeout(...); timeoutRef.current = null }] *)
Definition cancelTimeout (s : Hook) : Hook := setTimeoutRef None s.

Definition undo (s : Hook) : Hook :=
  if decide (length (past s) = 0%nat) then s
  else
    match past s !! (length (past s) - 1)%nat with
    | None => s
    | Some previous =>
        let s0 := cancelTimeout s in
        let newPast := take (length (past s) - 1)%nat (past s) in
        let s1 := setFuture (fun f => present s :: f) s0 in
        let s2 := setPresent previous s1 in
        let s3 := setPast (fun _ => newPast) s2 in
        setLastCommitted previous s3
    end.

Definition redo (s : Hook) : Hook :=
  if decide (length (future s) = 0%nat) then s
  else
    match future s !! 0%nat with
    | None => s
    | Some next =>
        let s0 := cancelTimeout s in
        let newFuture := drop 1 (future s) in
        let s1 := setPast (fun p => p ++ [present s]) s0 in
        let s2 := setPresent next s1 in
        let s3 := setFuture (fun _ => newFuture) s2 in
        setLastCommitted next s3
    end.

(** The inner function of [set]; [v] is the [newValue] it closes over.
    [setPast] only queues its updater; [setFuture([])] and the assignment
    [lastCommittedRef.current = newValue] come next, and the updater
    [p => [...p, lastCommittedRef.current]] runs at the render that follows,
    so the value it appends is the one just assigned. *)
Definition commitToHistory (v : T) (s : Hook) : Hook :=
  let s1 := setFuture (fun _ => []) s in
  let s2 := setLastCommitted v s1 in
  setPast (fun p => p ++ [lastCommittedRef s2]) s2.

(** [!options.debounce]: true for an absent option and for [0]. *)
Definition noDebounce (o : UndoRedoOptions) : bool :=
  match debounce o with
  | None => true
  | Some d => bool_decide (d = 0)
  end.

(** The delay [setTimeout] waits for: a negative delay counts as [0]. *)
Definition delay (o : UndoRedoOptions) : Z :=
  match debounce o with
  | None => 0
  | Some d => Z.max 0 d
  end.

(** [set] as a closure: [seen] is the [present] of the render in which the
    callback was created ([useCallback(..., [present, options.debounce])]). *)
Definition set_closure (o : UndoRedoOptions) (seen : T) (now : Z)
    (v : T) (forceHistory : bool) (s : Hook) : Hook :=
  if decide (v = seen) then s
  else
    let s1 := setPresent v s in
    if forceHistory || noDebounce o then
      commitToHistory v (cancelTimeout s1)
    else
      setTimeoutRef (Some {| due := now + delay o; newValue := v |}) s1.

(** [set] called through the callback of the latest render. *)
Definition set (o : UndoRedoOptions) (now : Z) (v : T) (forceHistory : bool)
    (s : Hook) : Hook :=
  set_closure o (present s) now v forceHistory s.

Definition reset (v : T) (s : Hook) : Hook :=
  let s1 := setPresent v s in
  let s2 := setPast (fun _ => []) s1 in
  let s3 := setFuture (fun _ => []) s2 in
  let s4 := setLastCommitted v s3 in
  cancelTimeout s4.

Definition value (s : Hook) : T := present s.
Definition canUndo (s : Hook) : bool := bool_decide (0 < length (past s))%nat.
Definition canRedo (s : Hook) : bool := bool_decide (0 < length (future s))%nat.

(** The event loop at time [now]: a pending timer that is due runs its
    callback, [commitToHistory(); timeoutRef.current = null]. *)
Definition runTimers (now : Z) (s : Hook) : Hook :=
  match timeoutRef s with
  | None => s
  | Some tm =>
      if decide (due tm <= now) then
        setTimeoutRef None (commitToHistory (newValue tm) s)
      else s
  end.

(** *** Timed runs

    A run is a list of calls, each made at a given time; before a call is
    served the event loop runs the timer that is due by then. *)
Inductive Call : Type :=
| CallSet (v : T) (forceHistory : bool)
| CallUndo
| CallRedo
| CallReset (v : T)
| CallNone.

Definition Event : Type := Z * Call.

Definition call (o : UndoRedoOptions) (now : Z) (c : Call) (s : Hook) : Hook :=
  match c with
  | CallSet v forceHistory => set o now v forceHistory s
  | CallUndo => undo s
  | CallRedo => redo s
  | CallReset v => reset v s
  | CallNone => s
  end.

Definition step (o : UndoRedoOptions) (s : Hook) (e : Event) : Hook :=
  call o e.1 e.2 (runTimers e.1 s).

Definition run (o : UndoRedoOptions) (s : Hook) (evs : list Event) : Hook :=
  foldl (step o) s evs.

(** *** Workloads used by the properties *)

(** Forced and plain [set] calls, one per (time, value) pair. *)
Definition forcedSets (tvs : list (Z * T)) : list Event :=
  map (fun tv => (tv.1, CallSet tv.2 true)) tvs.

Definition plainSets (tvs : list (Z * T)) : list Event :=
  map (fun tv => (tv.1, CallSet tv.2 false)) tvs.

(** Every value of [vs] differs from the value in effect when it is set:
    the first from [v0], each later one from the one before it. *)
Fixpoint changes (v0 : T) (vs : list T) : Prop :=
  match vs with
  | [] => True
  | v :: r => v <> v0 /\ changes v r
  end.

(** Consecutive calls are less than [d] apart (and time does not go back). *)
Fixpoint closeGaps (d : Z) (ts : list Z) : Prop :=
  match ts with
  | [] => True
  | t1 :: r =>
      match r with
      | [] => True
      | t2 :: _ => t1 <= t2 < t1 + d /\ closeGaps d r
      end
  end.

(** [past], [present] and [future] laid out as one line of values. *)
Definition timeline (s : Hook) : list T := past s ++ [present s] ++ future s.

(** *** History variables

    What a step does to the history, read off the branches of the code:
    the values it appends to [past], the values it commits (the [newValue]
    of a [commitToHistory], the argument of [reset]) and the values of
    [present] that [undo] or [redo] move into a stack while a debounced
    commit for them is still pending. *)
Definition timerPushes (now : Z) (s : Hook) : list T :=
  match timeoutRef s with
  | None => []
  | Some tm => if decide (due tm <= now) then [newValue tm] else []
  end.

Definition timerCommits (now : Z) (s : Hook) : list T :=
  match timeoutRef s with
  | None => []
  | Some tm => if decide (due tm <= now) then [newValue tm] else []
  end.

Definition callPushes (o : UndoRedoOptions) (c : Call) (s : Hook) : list T :=
  match c with
  | CallSet v forceHistory =>
      if decide (v = present s) then []
      else if forceHistory || noDebounce o then [v] else []
  | CallRedo => match future s with [] => [] | _ :: _ => [present s] end
  | _ => []
  end.

Definition callCommits (o : UndoRedoOptions) (c : Call) (s : Hook) : list T :=
  match c with
  | CallSet v forceHistory =>
      if decide (v = present s) then []
      else if forceHistory || noDebounce o then [v] else []
  | CallReset v => [v]
  | _ => []
  end.

Definition callDisplaces (c : Call) (s : Hook) : list T :=
  match timeoutRef s with
  | None => []
  | Some _ =>
      match c with
      | CallUndo => match past s with [] => [] | _ :: _ => [present s] end
      | CallRedo => match future s with [] => [] | _ :: _ => [present s] end
      | _ => []
      end
  end.

(** A hook together with its history variables. *)
Record Audit : Type := {
  hook : Hook;
  lastPushed : option T;      (* latest value appended to [past] since init/reset *)
  initialValue : T;           (* the value of the latest init/reset *)
  committed : list T;         (* every value committed so far, oldest first *)
  displaced : list T          (* uncommitted values moved into a stack *)
}.

Definition start (initialState : T) : Audit :=
  {| hook := useUndoRedo initialState; lastPushed := None;
     initialValue := initialState; committed := [initialState];
     displaced := [] |}.

(** The two halves of a step: the event loop, then the call. *)
Definition observeTimers (now : Z) (a : Audit) : Audit :=
  {| hook := runTimers now (hook a);
     lastPushed :=
       match last (timerPushes now (hook a)) with
       | Some x => Some x
       | None => lastPushed a
       end;
     initialValue := initialValue a;
     committed := committed a ++ timerCommits now (hook a);
     displaced := displaced a |}.

Definition observeCall (o : UndoRedoOptions) (now : Z) (c : Call) (a : Audit) : Audit :=
  {| hook := call o now c (hook a);
     lastPushed :=
       match c with
       | CallReset _ => None
       | _ =>
           match last (callPushes o c (hook a)) with
           | Some x => Some x
           | None => lastPushed a
           end
       end;
     initialValue :=
       match c with CallReset v => v | _ => initialValue a end;
     committed := committed a ++ callCommits o c (hook a);
     displaced := displaced a ++ callDisplaces c (hook a) |}.

Definition observe (o : UndoRedoOptions) (a : Audit) (e : Event) : Audit :=
  observeCall o e.1 e.2 (observeTimers e.1 a).

Definition audit (o : UndoRedoOptions) (initialState : T) (evs : list Event) : Audit :=
  foldl (observe o) (start initialState) evs.

(** No commit is pending and [lastCommittedRef] is the value shown, or one
    is pending and it is for the value shown. *)
Definition coherent (s : Hook) : Prop :=
  match timeoutRef s with
  | None => lastCommittedRef s = present s
  | Some tm => present s = newValue tm
  end.

(** [v] was committed, or was displaced while its commit was pending. *)
Definition known (a : Audit) (v : T) : Prop :=
  v ∈ committed a \/ v ∈ displaced a.

(** The two invariants as the specification words them. *)
Definition lastCommittedIsLastPushed (a : Audit) : Prop :=
  lastCommittedRef (hook a) = default (initialValue a) (lastPushed a).

Definition stacksCommitted (a : Audit) : Prop :=
  Forall (fun v => v ∈ committed a) (past (hook a) ++ future (hook a)).

(** Nothing was appended to [past] since the latest init/reset: the stacks
    are empty and [lastCommittedRef] still holds the value of that reset. *)
Definition untouched (a : Audit) : Prop :=
  match lastPushed a with
  | Some _ => True
  | None =>
      lastCommittedRef (hook a) = initialValue a /\
      past (hook a) = [] /\ future (hook a) = []
  end.

(** Every stored value is accounted for. *)
Definition accounted (a : Audit) : Prop :=
  known a (lastCommittedRef (hook a)) /\
  Forall (known a) (past (hook a)) /\
  Forall (known a) (future (hook a)) /\
  coherent (hook a).

(** *** The value last shown with no commit pending *)

Definition settledAfter (prev : T) (s : Hook) : T :=
  match timeoutRef s with
  | None => present s
  | Some _ => prev
  end.

(** A run that carries, beside the hook, the value the buffer showed the
    last time no debounced commit was pending (after the event loop or
    after a call). *)
Definition watch (o : UndoRedoOptions) (p : Hook * T) (e : Event) : Hook * T :=
  let s1 := runTimers e.1 p.1 in
  let x1 := settledAfter p.2 s1 in
  let s2 := call o e.1 e.2 s1 in
  (s2, settledAfter x1 s2).

Definition lastSettled (o : UndoRedoOptions) (initialState : T)
    (evs : list Event) : T :=
  (foldl (watch o) (useUndoRedo initialState, initialState) evs).2.

(** *** Walking the history

    A press of the undo or of the redo button. *)
Inductive Move : Type := Back | Forward.

Definition move (s : Hook) (m : Move) : Hook :=
  match m with
  | Back => undo s
  | Forward => redo s
  end.

Definition moves (s : Hook) (ms : list Move) : Hook := foldl move s ms.

End hook.

Arguments Hook : clear implicits.
Arguments Timeout : clear implicits.
Arguments Call : clear implicits.
Arguments Event : clear implicits.
Arguments Audit : clear implicits.

End UndoRedo.

(** ** The request guard of [App] *)

Module App.

Import UndoRedo.

(** [useUndoRedo('', { debounce: 800 })] and [useUndoRedo('')]. *)
Definition inputOptions : UndoRedoOptions := {| debounce := Some 800 |}.
Definition outputOptions : UndoRedoOptions := {| debounce := None |}.

(** The cells of [App] that [triggerCleaning] reads or writes, and the two
    history buffers. *)
Record State : Type := {
  input : Hook string;
  output : Hook string;
  isCleaning : bool;
  error : option string;
  lastRequestTime : Z
}.

Definition initial : State :=
  {| input := useUndoRedo ""%string; output := useUndoRedo ""%string;
     isCleaning := false; error := None; lastRequestTime := 0 |}.

Definition setIsCleaning (b : bool) (a : State) : State :=
  {| input := input a; output := output a; isCleaning := b;
     error := error a; lastRequestTime := lastRequestTime a |}.

Definition setError (e : option string) (a : State) : State :=
  {| input := input a; output := output a; isCleaning := isCleaning a;
     error := e; lastRequestTime := lastRequestTime a |}.

Definition setLastRequestTime (t : Z) (a : State) : State :=
  {| input := input a; output := output a; isCleaning := isCleaning a;
     error := error a; lastRequestTime := t |}.

Definition withOutput (h : Hook string) (a : State) : State :=
  {| input := input a; output := h; isCleaning := isCleaning a;
     error := error a; lastRequestTime := lastRequestTime a |}.

(** [String.prototype.trim] on strings of code units below 256: the white
    space and line terminators of that range are TAB, LF, VT, FF, CR, SP and
    NBSP. *)
Definition isWhiteSpace (c : ascii) : bool :=
  let n := nat_of_ascii c in
  ((9 <=? n) && (n <=? 13) || (n =? 32) || (n =? 160))%nat.

Fixpoint trimStart (s : string) : string :=
  match s with
  | EmptyString => EmptyString
  | String c r => if isWhiteSpace c then trimStart r else s
  end.

Fixpoint trimEnd (s : string) : string :=
  match s with
  | EmptyString => EmptyString
  | String c r =>
      match trimEnd r with
      | EmptyString => if isWhiteSpace c then EmptyString else String c EmptyString
      | r' => String c r'
      end
  end.

Definition trim (s : string) : string := trimEnd (trimStart s).

(** Truthiness of a string: the empty string is falsy. *)
Definition truthy (s : string) : bool :=
  match s with EmptyString => false | String _ _ => true end.

(** How the promise of [cleanTextWithGemini] settles: with the cleaned text,
    or with an error whose [message] may be missing. *)
Inductive Settled : Type :=
| Resolved (cleaned : string)
| Rejected (message : option string).

(** [err.message || "Terjadi kesalahan sistem."] *)
Definition errorMessage (message : option string) : string :=
  match message with
  | Some m => if truthy m then m else "Terjadi kesalahan sistem."%string
  | None => "Terjadi kesalahan sistem."%string
  end.

(** [triggerCleaning] up to its [await]: [now] is what [Date.now()] returns.
    The result carries the [requestId] of the request, if one was issued. *)
Definition triggerCleaning (now : Z) (text : string) (a : State) : State * option Z :=
  if negb (truthy (trim text)) then (a, None)
  else
    let requestId := now in
    let a1 := setLastRequestTime requestId a in
    let a2 := setIsCleaning true a1 in
    (setError None a2, Some requestId).

(** [triggerCleaning] from the [await] on, once the promise has settled.
    [seenOutput] is the [output] of the render whose [setOutput] the
    invocation closed over; [now] is the time of the continuation. *)
Definition triggerCleaning_resume (requestId : Z) (seenOutput : string) (now : Z)
    (r : Settled) (a : State) : State :=
  let a1 :=
    match r with
    | Resolved cleaned =>
        if decide (lastRequestTime a = requestId) then
          withOutput (set_closure outputOptions seenOutput now cleaned true (output a)) a
        else a
    | Rejected message =>
        if decide (lastRequestTime a = requestId) then
          setError (Some (errorMessage message)) a
        else a
    end in
  if decide (lastRequestTime a1 = requestId) then setIsCleaning false a1 else a1.

Definition withInput (h : Hook string) (a : State) : State :=
  {| input := h; output := output a; isCleaning := isCleaning a;
     error := error a; lastRequestTime := lastRequestTime a |}.

(** A string made of white space only (the empty string included). *)
Fixpoint blank (s : string) : bool :=
  match s with
  | EmptyString => true
  | String c r => isWhiteSpace c && blank r
  end.

(** [handleClear], called from the button of the latest render. *)
Definition handleClear (now : Z) (a : State) : State :=
  if negb (truthy (present (input a))) then a
  else
    let a1 := withInput (set inputOptions now ""%string true (input a)) a in
    let a2 := withOutput (set outputOptions now ""%string true (output a1)) a1 in
    setError None a2.

(** The callback of the timer of the auto-clean effect.  [seenInput] and
    [seenOutput] are the [input] and [output] of the render in which the
    effect was set up. *)
Definition autoCleanTimer (seenInput seenOutput : string) (now : Z) (a : State)
    : State * option Z :=
  if negb (truthy (trim seenInput)) then
    (if truthy seenOutput then
       withOutput (set_closure outputOptions seenOutput now ""%string true (output a)) a
     else a,
     None)
  else triggerCleaning now seenInput a.

(** [interface CleaningOptions] and [keyof CleaningOptions]. *)
Record CleaningOptions : Type := {
  normalizeSpaces : bool;
  removeBlankLines : bool;
  fixBrokenLines : bool;
  removeSpecialChars : bool
}.

Inductive Key : Type :=
| KNormalizeSpaces
| KRemoveBlankLines
| KFixBrokenLines
| KRemoveSpecialChars.

Definition flag (key : Key) (o : CleaningOptions) : bool :=
  match key with
  | KNormalizeSpaces => normalizeSpaces o
  | KRemoveBlankLines => removeBlankLines o
  | KFixBrokenLines => fixBrokenLines o
  | KRemoveSpecialChars => removeSpecialChars o
  end.

(** The initial value of the [options] cell. *)
Definition defaultOptions : CleaningOptions :=
  {| normalizeSpaces := true; removeBlankLines := true;
     fixBrokenLines := true; removeSpecialChars := false |}.

(** The updater of [toggleOption]: [prev => ({ ...prev, [key]: !prev[key] })]. *)
Definition toggleOption (key : Key) (prev : CleaningOptions) : CleaningOptions :=
  match key with
  | KNormalizeSpaces =>
      {| normalizeSpaces := negb (normalizeSpaces prev);
         removeBlankLines := removeBlankLines prev;
         fixBrokenLines := fixBrokenLines prev;
         removeSpecialChars := removeSpecialChars prev |}
  | KRemoveBlankLines =>
      {| normalizeSpaces := normalizeSpaces prev;
         removeBlankLines := negb (removeBlankLines prev);
         fixBrokenLines := fixBrokenLines prev;
         removeSpecialChars := removeSpecialChars prev |}
  | KFixBrokenLines =>
      {| normalizeSpaces := normalizeSpaces prev;
         removeBlankLines := removeBlankLines prev;
         fixBrokenLines := negb (fixBrokenLines prev);
         removeSpecialChars := removeSpecialChars prev |}
  | KRemoveSpecialChars =>
      {| normalizeSpaces := normalizeSpaces prev;
         removeBlankLines := removeBlankLines prev;
         fixBrokenLines := fixBrokenLines prev;
         removeSpecialChars := negb (removeSpecialChars prev) |}
  end.

End App.

(** ** The service [cleanTextWithGemini] *)

Module GeminiService.

Import App.

Definition rule1 : string := "1. Hapus spasi di awal/akhir baris dan ubah spasi berlebih antar kata menjadi satu spasi."%string.
Definition rule2 : string := "2. Hapus baris kosong yang berlebihan (maksimal satu baris kosong sebagai pemisah antar paragraf)."%string.
Definition rule3 : string := "3. Gabungkan baris yang terputus secara tidak wajar di tengah kalimat (sering terjadi pada hasil copy-paste PDF). JANGAN gabungkan jika itu adalah item daftar (list) atau awal paragraf baru."%string.
Definition rule4 : string := "4. Hapus karakter non-standar, simbol aneh, atau artifacts yang tidak terbaca."%string.

(** The list [rules] the function builds from the options. *)
Definition rules (options : CleaningOptions) : list string :=
  (if normalizeSpaces options then [rule1] else []) ++
  (if removeBlankLines options then [rule2] else []) ++
  (if fixBrokenLines options then [rule3] else []) ++
  (if removeSpecialChars options then [rule4] else []).

(** What [ai.models.generateContent] does: it resolves with a response whose
    [text] may be missing, or it rejects. *)
Inductive Api : Type :=
| ApiResponse (text : option string)
| ApiRejects.

Definition failureMessage : string := "Gagal memproses teks. Periksa koneksi atau API Key Anda."%string.

(** [cleanTextWithGemini(text, options)] against an API that behaves as
    [api]; the client is taken to be constructed without an exception.  The
    prompt built from [rules] only feeds the request and is left out. *)
Definition cleanTextWithGemini (text : string) (options : CleaningOptions)
    (api : Api) : Settled :=
  if negb (truthy text) || (String.length (trim text) =? 0)%nat then
    Resolved ""%string
  else
    match api with
    | ApiResponse t =>
        Resolved match t with
                 | Some x => if truthy x then x else ""%string
                 | None => ""%string
                 end
    | ApiRejects => Rejected (Some failureMessage)
    end.

End GeminiService.

(** ** Properties of the history buffer *)

Module HistoryFacts.

Import UndoRedo.

Section facts.
Context {T : Type} `{EqDecision T}.
Implicit Types (s : Hook T) (o : UndoRedoOptions) (v x : T) (p f : list T).

(** *** Equations of the operations *)

Lemma undo_nil s : past s = [] -> undo s = s.
Proof. intros Hp. unfold undo. rewrite Hp. reflexivity. Qed.

Lemma undo_snoc s p x :
  past s = p ++ [x] ->
  undo s = {| present := x; past := p; future := present s :: future s;
              lastCommittedRef := x; timeoutRef := None |}.
Proof.
  intros Hp. unfold undo. rewrite Hp, length_app. cbn [length].
  replace (length p + 1 - 1)%nat with (length p) by lia.
  destruct (decide ((length p + 1)%nat = 0%nat)) as [E|_]; [lia|].
  rewrite (list_lookup_middle p [] x (length p) eq_refl).
  rewrite take_app_length. reflexivity.
Qed.

Lemma redo_nil s : future s = [] -> redo s = s.
Proof. intros Hf. unfold redo. rewrite Hf. reflexivity. Qed.

Lemma redo_cons s x f :
  future s = x :: f ->
  redo s = {| present := x; past := past s ++ [present s]; future := f;
              lastCommittedRef := x; timeoutRef := None |}.
Proof. intros Hf. unfold redo. rewrite Hf. cbn. rewrite drop_0. reflexivity. Qed.

Lemma set_same o now v forceHistory s :
  v = present s -> set o now v forceHistory s = s.
Proof.
  intros ->. unfold set, set_closure.
  destruct (decide (present s = present s)); [reflexivity | contradiction].
Qed.

Lemma set_commit o now v forceHistory s :
  v <> present s -> forceHistory || noDebounce o = true ->
  set o now v forceHistory s =
    {| present := v; past := past s ++ [v]; future := [];
       lastCommittedRef := v; timeoutRef := None |}.
Proof.
  intros Hv Hc. unfold set, set_closure.
  destruct (decide (v = present s)); [contradiction|].
  rewrite Hc. reflexivity.
Qed.

Lemma set_schedule o now v s :
  v <> present s -> noDebounce o = false ->
  set o now v false s =
    {| present := v; past := past s; future := future s;
       lastCommittedRef := lastCommittedRef s;
       timeoutRef := Some {| due := now + delay o; newValue := v |} |}.
Proof.
  intros Hv Hd. unfold set, set_closure.
  destruct (decide (v = present s)); [contradiction|].
  cbn. rewrite Hd. reflexivity.
Qed.

Lemma positive_debounce o d :
  debounce o = Some d -> 0 < d -> noDebounce o = false /\ delay o = d.
Proof.
  intros Hd Hpos. unfold noDebounce, delay. rewrite Hd. split.
  - apply bool_decide_eq_false. lia.
  - lia.
Qed.

Lemma runTimers_idle t s : timeoutRef s = None -> runTimers t s = s.
Proof. intros Ht. unfold runTimers. rewrite Ht. reflexivity. Qed.

Lemma runTimers_early t tm s :
  timeoutRef s = Some tm -> t < due tm -> runTimers t s = s.
Proof.
  intros Ht Hlt. unfold runTimers. rewrite Ht.
  destruct (decide (due tm <= t)); [lia | reflexivity].
Qed.

Lemma runTimers_fire t tm s :
  timeoutRef s = Some tm -> due tm <= t ->
  runTimers t s =
    {| present := present s; past := past s ++ [newValue tm];
       future := []; lastCommittedRef := newValue tm; timeoutRef := None |}.
Proof.
  intros Ht Hle. unfold runTimers. rewrite Ht.
  destruct (decide (due tm <= t)); [reflexivity | lia].
Qed.

Lemma run_snoc o s evs e : run o s (evs ++ [e]) = step o (run o s evs) e.
Proof. unfold run. apply foldl_snoc. Qed.

Lemma canRedo_false s : future s = [] -> canRedo s = false.
Proof. intros Hf. unfold canRedo. rewrite Hf. reflexivity. Qed.

Lemma canUndo_true s : past s <> [] -> canUndo s = true.
Proof.
  intros Hp. unfold canUndo. apply bool_decide_eq_true.
  destruct (past s); [contradiction | cbn; lia].
Qed.

(** *** Undo and redo *)

(** C7: [undo] leaves the state as it is when [past] is empty; otherwise,
    with [past = p ++ [x]], it clears the pending timer, puts the current
    [present] at the front of [future], drops the last entry [x] of [past],
    makes [x] the new [present] and stores [x] in [lastCommittedRef]. *)
Theorem undo_spec s :
  (past s = [] -> undo s = s) /\
  (forall p x, past s = p ++ [x] ->
     timeoutRef (undo s) = None /\
     future (undo s) = present s :: future s /\
     past (undo s) = p /\
     present (undo s) = x /\
     lastCommittedRef (undo s) = x).
Proof.
  split.
  - apply undo_nil.
  - intros p x Hp. rewrite (undo_snoc s p x Hp). cbn. repeat split.
Qed.

(** C1: when [past] is not empty, [undo] followed at once by [redo] gives
    back the [present], the [past] and the [future] the buffer had before. *)
Theorem undo_redo_roundtrip s :
  past s <> [] ->
  present (redo (undo s)) = present s /\
  past (redo (undo s)) = past s /\
  future (redo (undo s)) = future s.
Proof.
  intros Hne.
  destruct (past s) as [|y l] eqn:Hp using rev_ind; [contradiction|].
  clear IHl. rewrite (undo_snoc s l y Hp).
  erewrite redo_cons by reflexivity. cbn. repeat split.
Qed.

(** *** Commits *)


(** C10: with a positive debounce interval [d], a plain [set] of a value
    other than [present] leaves [future] (and [canRedo]) as it was and only
    schedules the commit; [future] stays as it was while the timer is not
    due, and is emptied when the timer fires, [d] after the call. *)
Theorem plain_set_keeps_future o d now v s :
  debounce o = Some d -> 0 < d -> v <> present s ->
  future (set o now v false s) = future s /\
  canRedo (set o now v false s) = canRedo s /\
  timeoutRef (set o now v false s) = Some {| due := now + d; newValue := v |} /\
  (forall t, t < now + d -> future (runTimers t (set o now v false s)) = future s) /\
  (forall t, now + d <= t -> future (runTimers t (set o now v false s)) = []).
Proof.
  intros Hd Hpos Hv.
  destruct (positive_debounce o d Hd Hpos) as [Hnd Hdel].
  rewrite (set_schedule o now v s Hv Hnd), Hdel.
  split; [reflexivity|]. split; [reflexivity|]. split; [reflexivity|]. split.
  - intros t Ht. erewrite runTimers_early; [reflexivity | reflexivity | cbn; lia].
  - intros t Ht. erewrite runTimers_fire; [reflexivity | reflexivity | cbn; lia].
Qed.

(** *** Invariants of runs *)

Lemma coherent_start (v : T) : coherent (useUndoRedo v).
Proof. reflexivity. Qed.

Lemma coherent_runTimers t s : coherent s -> coherent (runTimers t s).
Proof.
  unfold coherent at 1. intros Hc.
  destruct (timeoutRef s) as [tm|] eqn:Ht.
  - destruct (decide (due tm <= t)) as [Hd|Hd].
    + rewrite (runTimers_fire t tm s Ht Hd). unfold coherent. cbn. congruence.
    + rewrite (runTimers_early t tm s Ht) by lia. unfold coherent. by rewrite Ht.
  - rewrite (runTimers_idle t s Ht). unfold coherent. by rewrite Ht.
Qed.

Lemma coherent_call o now c s : coherent s -> coherent (call o now c s).
Proof.
  intros Hc. destruct c as [v fh| | |v|]; cbn [call].
  - destruct (decide (v = present s)) as [Hv|Hv]; [by rewrite set_same|].
    destruct (fh || noDebounce o) eqn:Hf.
    + by rewrite set_commit.
    + apply orb_false_elim in Hf as [-> Hnd]. by rewrite set_schedule.
  - destruct (past s) as [|y l _] eqn:Hp using rev_ind.
    + by rewrite undo_nil.
    + by rewrite (undo_snoc s l y Hp).
  - destruct (future s) as [|y l] eqn:Hf.
    + by rewrite redo_nil.
    + by rewrite (redo_cons s y l Hf).
  - reflexivity.
  - exact Hc.
Qed.

Lemma coherent_step o s e : coherent s -> coherent (step o s e).
Proof. intros Hc. apply coherent_call, coherent_runTimers, Hc. Qed.

Lemma coherent_run o s evs : coherent s -> coherent (run o s evs).
Proof.
  intros Hc. induction evs as [|e evs IH] using rev_ind; [exact Hc|].
  rewrite run_snoc. apply coherent_step, IH.
Qed.

(** The history variables ride on the run of the code and record what it
    appends to [past]. *)
Lemma hook_audit o (v : T) evs : hook (audit o v evs) = run o (useUndoRedo v) evs.
Proof.
  induction evs as [|e evs IH] using rev_ind; [reflexivity|].
  unfold audit. rewrite foldl_snoc. fold (audit o v evs).
  rewrite run_snoc, <- IH. reflexivity.
Qed.

Lemma timerPushes_sound t s : past (runTimers t s) = past s ++ timerPushes t s.
Proof.
  unfold runTimers, timerPushes. destruct (timeoutRef s) as [tm|].
  - destruct (decide (due tm <= t)); cbn; [reflexivity | by rewrite app_nil_r].
  - by rewrite app_nil_r.
Qed.

Lemma callPushes_sound o now c s :
  c <> CallUndo -> (forall v, c <> CallReset v) ->
  past (call o now c s) = past s ++ callPushes o c s.
Proof.
  intros Hu Hr. destruct c as [v fh| | |v|]; cbn [call callPushes].
  - destruct (decide (v = present s)) as [Hv|Hv].
    + by rewrite set_same, app_nil_r.
    + destruct (fh || noDebounce o) eqn:Hf.
      * by rewrite set_commit.
      * apply orb_false_elim in Hf as [-> Hnd].
        by rewrite set_schedule, app_nil_r.
  - contradiction.
  - destruct (future s) as [|y l] eqn:Hf.
    + by rewrite redo_nil, app_nil_r.
    + by rewrite (redo_cons s y l Hf).
  - by destruct (Hr v).
  - by rewrite app_nil_r.
Qed.

Lemma untouched_observeTimers t (a : Audit T) :
  untouched a -> untouched (observeTimers t a).
Proof.
  unfold untouched, observeTimers, timerPushes, runTimers. cbn.
  destruct (timeoutRef (hook a)) as [tm|]; [|done].
  destruct (decide (due tm <= t)); cbn; done.
Qed.

Lemma untouched_observeCall o now c (a : Audit T) :
  untouched a -> untouched (observeCall o now c a).
Proof.
  unfold untouched. intros Ha.
  destruct c as [v fh| | |v|]; cbn [observeCall lastPushed hook initialValue call callPushes].
  - destruct (decide (v = present (hook a))) as [Hv|Hv]; cbn [last].
    + by rewrite set_same.
    + destruct (fh || noDebounce o) eqn:Hf; cbn [last]; [done|].
      apply orb_false_elim in Hf as [-> Hnd]. rewrite set_schedule by done.
      destruct (lastPushed a); done.
  - cbn [last]. destruct (lastPushed a); [done|].
    destruct Ha as (Hl & Hp & Hf). rewrite undo_nil by done. auto.
  - destruct (future (hook a)) as [|y l] eqn:Hf; cbn [last]; [|done].
    rewrite redo_nil by done. destruct (lastPushed a); [done|].
    destruct Ha as (Hl & Hp & _). auto.
  - cbn. auto.
  - cbn [last]. destruct (lastPushed a); done.
Qed.

Lemma untouched_audit o (v : T) evs : untouched (audit o v evs).
Proof.
  induction evs as [|e evs IH] using rev_ind; [by cbn|].
  unfold audit. rewrite foldl_snoc. fold (audit o v evs).
  apply untouched_observeCall, untouched_observeTimers, IH.
Qed.

Lemma known_grow (a a' : Audit T) v cs ds :
  committed a' = committed a ++ cs -> displaced a' = displaced a ++ ds ->
  known a v -> known a' v.
Proof.
  unfold known. intros -> ->. rewrite !elem_of_app. tauto.
Qed.

Lemma known_committed (a a' : Audit T) v cs :
  committed a' = committed a ++ cs -> v ∈ cs -> known a' v.
Proof. unfold known. intros ->. rewrite elem_of_app. tauto. Qed.

Lemma known_displaced (a a' : Audit T) v ds :
  displaced a' = displaced a ++ ds -> v ∈ ds -> known a' v.
Proof. unfold known. intros ->. rewrite elem_of_app. tauto. Qed.

Lemma runTimers_cases t s :
  (runTimers t s = s /\ timerCommits t s = [] /\ timerPushes t s = []) \/
  (exists tm, timeoutRef s = Some tm /\
     runTimers t s =
       {| present := present s; past := past s ++ [newValue tm];
          future := []; lastCommittedRef := newValue tm; timeoutRef := None |} /\
     timerCommits t s = [newValue tm] /\
     timerPushes t s = [newValue tm]).
Proof.
  unfold runTimers, timerCommits, timerPushes.
  destruct (timeoutRef s) as [tm|] eqn:Ht; [|by left].
  destruct (decide (due tm <= t)); [|by left].
  right. exists tm. done.
Qed.

Lemma accounted_start (v : T) : accounted (start v).
Proof.
  unfold accounted, known. cbn. split; [|split; [|split]].
  - left. by apply list_elem_of_singleton.
  - by apply Forall_nil.
  - by apply Forall_nil.
  - apply coherent_start.
Qed.

Lemma accounted_observeTimers t (a : Audit T) :
  accounted a -> accounted (observeTimers t a).
Proof.
  intros (Hl & Hp & Hf & Hc).
  assert (Hg : forall v, known a v -> known (observeTimers t a) v).
  { intros v. by apply (known_grow a _ v (timerCommits t (hook a)) []); cbn;
      rewrite ?app_nil_r. }
  unfold accounted. cbn [observeTimers hook].
  destruct (runTimers_cases t (hook a)) as [(-> & _ & _)|(tm & Ht & -> & Hcm & _)].
  - split; [by apply Hg|]. split; [by eapply Forall_impl|].
    split; [by eapply Forall_impl | done].
  - cbn. split; [|split; [|split]].
    + apply (known_committed a _ _ [newValue tm]); [by rewrite <- Hcm|].
      by apply list_elem_of_singleton.
    + apply Forall_app. split; [by eapply Forall_impl|].
      apply Forall_singleton.
      apply (known_committed a _ _ [newValue tm]); [by rewrite <- Hcm|].
      by apply list_elem_of_singleton.
    + by apply Forall_nil.
    + unfold coherent in Hc. rewrite Ht in Hc. done.
Qed.

Lemma accounted_observeCall o now c (a : Audit T) :
  accounted a -> accounted (observeCall o now c a).
Proof.
  intros (Hl & Hp & Hf & Hc).
  assert (Hg : forall v, known a v -> known (observeCall o now c a) v).
  { intros v. by apply (known_grow a _ v (callCommits o c (hook a))
                         (callDisplaces c (hook a))). }
  assert (Hgp : Forall (known (observeCall o now c a)) (past (hook a)))
    by (by eapply Forall_impl).
  assert (Hgf : Forall (known (observeCall o now c a)) (future (hook a)))
    by (by eapply Forall_impl).
  apply Hg in Hl.
  assert (Hpr : timeoutRef (hook a) = None ->
                known (observeCall o now c a) (present (hook a))).
  { intros Ht. unfold coherent in Hc. rewrite Ht in Hc. by rewrite <- Hc. }
  pose proof (coherent_call o now c _ Hc) as Hc'.
  unfold accounted.
  destruct c as [v fh| | |v|]; cbn [observeCall hook call] in *.
  - (* set *)
    destruct (decide (v = present (hook a))) as [Hv|Hv].
    { rewrite set_same by done. by repeat split. }
    assert (Hkv : fh || noDebounce o = true ->
                  known (observeCall o now (CallSet v fh) a) v).
    { intros Hfh. unfold known. cbn. rewrite decide_False, Hfh by done.
      left. rewrite elem_of_app. right. by apply list_elem_of_singleton. }
    destruct (fh || noDebounce o) eqn:Hfh.
    + rewrite set_commit in * by done. cbn.
      split; [by apply Hkv|]. split; [|split; [by apply Forall_nil | done]].
      apply Forall_app. split; [done|]. apply Forall_singleton. by apply Hkv.
    + apply orb_false_elim in Hfh as [-> Hnd].
      rewrite set_schedule in * by done. cbn. by repeat split.
  - (* undo *)
    destruct (past (hook a)) as [|y l _] eqn:Hpa using rev_ind.
    { rewrite undo_nil by done. rewrite Hpa. by repeat split. }
    rewrite (undo_snoc _ l y Hpa) in *. cbn.
    apply Forall_app in Hgp as [Hgl Hgy]. rewrite Forall_singleton in Hgy.
    split; [done|]. split; [done|]. split; [|done].
    apply Forall_cons. split; [|done].
    destruct (timeoutRef (hook a)) as [tm|] eqn:Ht; [|by apply Hpr].
    unfold known. cbn. unfold callDisplaces. rewrite Ht, Hpa.
    right. rewrite elem_of_app. right.
    destruct l; by apply list_elem_of_singleton.
  - (* redo *)
    destruct (future (hook a)) as [|y l] eqn:Hfu.
    { rewrite redo_nil by done. rewrite Hfu. by repeat split. }
    rewrite (redo_cons _ y l Hfu) in *. cbn.
    apply Forall_cons in Hgf as [Hgy Hgl].
    split; [done|]. split; [|done].
    apply Forall_app. split; [done|]. apply Forall_singleton.
    destruct (timeoutRef (hook a)) as [tm|] eqn:Ht; [|by apply Hpr].
    unfold known. cbn. unfold callDisplaces. rewrite Ht, Hfu.
    right. rewrite elem_of_app. right.
    by apply list_elem_of_singleton.
  - (* reset *)
    cbn. split; [|split; [by apply Forall_nil|split; [by apply Forall_nil|done]]].
    unfold known. cbn. left. rewrite elem_of_app. right.
    by apply list_elem_of_singleton.
  - done.
Qed.

Lemma accounted_audit o (v : T) evs : accounted (audit o v evs).
Proof.
  induction evs as [|e evs IH] using rev_ind; [apply accounted_start|].
  unfold audit. rewrite foldl_snoc. fold (audit o v evs).
  apply accounted_observeCall, accounted_observeTimers, IH.
Qed.

Lemma timeoutRef_call_idle o now c s :
  noDebounce o = true -> timeoutRef s = None -> timeoutRef (call o now c s) = None.
Proof.
  intros Hnd Ht. destruct c as [v fh| | |v|]; cbn [call].
  - destruct (decide (v = present s)) as [Hv|Hv]; [by rewrite set_same|].
    rewrite set_commit; [done | done |]. rewrite Hnd. apply orb_true_r.
  - destruct (past s) as [|y l _] eqn:Hp using rev_ind.
    + by rewrite undo_nil.
    + by rewrite (undo_snoc s l y Hp).
  - destruct (future s) as [|y l] eqn:Hf.
    + by rewrite redo_nil.
    + by rewrite (redo_cons s y l Hf).
  - reflexivity.
  - exact Ht.
Qed.

Lemma idle_audit o (v : T) evs :
  noDebounce o = true ->
  timeoutRef (hook (audit o v evs)) = None /\ displaced (audit o v evs) = [].
Proof.
  intros Hnd. induction evs as [|e evs [IHt IHd]] using rev_ind; [done|].
  unfold audit. rewrite foldl_snoc. fold (audit o v evs).
  unfold observe, observeCall, observeTimers. cbn.
  rewrite (runTimers_idle _ _ IHt). split.
  - by apply timeoutRef_call_idle.
  - rewrite IHd. unfold callDisplaces. by rewrite IHt.
Qed.

(** *** Runs of forced sets, and undoing them *)

Lemma run_cons o s e evs : run o s (e :: evs) = run o (step o s e) evs.
Proof. reflexivity. Qed.

Lemma changes_take (vs : list T) : forall v0 k, changes v0 vs -> changes v0 (take k vs).
Proof.
  induction vs as [|v r IH]; intros v0 k Hc; destruct k; cbn; try done.
  destruct Hc as [Hv Hr]. split; [done | by apply IH].
Qed.

(** What forced sets do: each one that changes the value shown appends the
    value it sets. *)
Lemma run_forced o (tvs : list (Z * T)) : forall s,
  timeoutRef s = None -> changes (present s) tvs.*2 ->
  past (run o s (forcedSets tvs)) = past s ++ tvs.*2 /\
  present (run o s (forcedSets tvs)) = default (present s) (last tvs.*2) /\
  timeoutRef (run o s (forcedSets tvs)) = None.
Proof.
  induction tvs as [|[t v] r IH]; intros s Ht Hc.
  - cbn. by rewrite app_nil_r.
  - destruct Hc as [Hv Hr].
    change (forcedSets ((t, v) :: r)) with ((t, CallSet v true) :: forcedSets r).
    rewrite run_cons.
    unfold step. cbn [fst snd call]. rewrite (runTimers_idle t s Ht).
    rewrite (set_commit o t v true s Hv eq_refl).
    destruct (IH {| present := v; past := past s ++ [v]; future := [];
                    lastCommittedRef := v; timeoutRef := None |})
      as (Hp & Hpr & Hti); [reflexivity | exact Hr |].
    rewrite Hp, Hpr, Hti. cbn [present past]. rewrite fmap_cons, last_cons.
    cbn [snd]. split; [by rewrite <- app_assoc|]. split; [|done].
    by destruct (last r.*2).
Qed.

Lemma timeline_undo s : timeline (undo s) = timeline s.
Proof.
  destruct (past s) as [|y l _] eqn:Hp using rev_ind.
  - by rewrite undo_nil.
  - rewrite (undo_snoc s l y Hp). unfold timeline. rewrite Hp. cbn.
    by rewrite <- app_assoc.
Qed.

Lemma length_past_undo s : length (past (undo s)) = pred (length (past s)).
Proof.
  destruct (past s) as [|y l _] eqn:Hp using rev_ind.
  - rewrite undo_nil by done. by rewrite Hp.
  - rewrite (undo_snoc s l y Hp). cbn. rewrite length_app. cbn. lia.
Qed.

Lemma iter_undo k s :
  timeline (Nat.iter k undo s) = timeline s /\
  length (past (Nat.iter k undo s)) = (length (past s) - k)%nat.
Proof.
  induction k as [|k [IHt IHl]].
  - change (Nat.iter 0 undo s) with s. split; [done | lia].
  - change (Nat.iter (S k) undo s) with (undo (Nat.iter k undo s)).
    rewrite timeline_undo, length_past_undo, IHt, IHl. split; [done | lia].
Qed.

Lemma timeline_present s : timeline s !! length (past s) = Some (present s).
Proof. unfold timeline. cbn. by apply list_lookup_middle. Qed.

Lemma iter_undo_stuck j s : past s = [] -> Nat.iter j undo s = s.
Proof.
  intros Hp. induction j as [|j IH]; [done|].
  change (Nat.iter (S j) undo s) with (undo (Nat.iter j undo s)).
  rewrite IH. by apply undo_nil.
Qed.

(** *** Bursts of debounced sets *)

Lemma run_plain o d :
  debounce o = Some d -> 0 < d ->
  forall (r : list (Z * T)) t v s tl,
  (forall tm, timeoutRef s = Some tm -> t < due tm) ->
  changes (present s) (v :: r.*2) -> closeGaps d (t :: r.*1) ->
  last ((t, v) :: r) = Some tl ->
  run o s (plainSets ((t, v) :: r)) =
    {| present := tl.2; past := past s; future := future s;
       lastCommittedRef := lastCommittedRef s;
       timeoutRef := Some {| due := tl.1 + d; newValue := tl.2 |} |}.
Proof.
  intros Hd Hpos. destruct (positive_debounce o d Hd Hpos) as [Hnd Hdel].
  induction r as [|[t' v'] r IH]; intros t v s tl Hdue [Hv Hr] Hg Hlast.
  all: cbn [plainSets map]; rewrite run_cons; unfold step; cbn [fst snd call].
  all: assert (Hidle : runTimers t s = s) by
    (destruct (timeoutRef s) as [tm|] eqn:Ht;
     [apply (runTimers_early t tm s Ht), Hdue, eq_refl
     | apply (runTimers_idle t s Ht)]).
  all: rewrite Hidle, (set_schedule o t v s Hv Hnd), Hdel.
  - cbn in Hlast. injection Hlast as <-. reflexivity.
  - destruct Hg as [Hgap Hg].
    change (map (fun tv => (tv.1, CallSet tv.2 false)) ((t', v') :: r))
      with (plainSets ((t', v') :: r)).
    rewrite (IH t' v' _ tl); [reflexivity | | done | done | done].
    cbn. intros tm [= <-]. cbn in *. lia.
Qed.

(** What a burst of plain sets does on a buffer with debounce interval
    [d > 0] and no commit pending: nothing is appended while it lasts, and
    once [q >= d] has passed one entry is appended, the last value set. *)
Lemma burst_commits_last_value o d (init : T) evs0 (tvs : list (Z * T)) tl q :
  debounce o = Some d -> 0 < d ->
  timeoutRef (run o (useUndoRedo init) evs0) = None ->
  last tvs = Some tl ->
  changes (present (run o (useUndoRedo init) evs0)) tvs.*2 ->
  closeGaps d tvs.*1 ->
  d <= q ->
  past (run o (run o (useUndoRedo init) evs0) (plainSets tvs))
    = past (run o (useUndoRedo init) evs0) /\
  runTimers (tl.1 + q) (run o (run o (useUndoRedo init) evs0) (plainSets tvs))
    = {| present := tl.2;
         past := past (run o (useUndoRedo init) evs0) ++ [tl.2];
         future := []; lastCommittedRef := tl.2; timeoutRef := None |}.
Proof.
  intros Hd Hpos Ht Hlast Hc Hg Hq.
  destruct tvs as [|[t v] r]; [done|].
  rewrite (run_plain o d Hd Hpos r t v _ tl); try done.
  - split; [reflexivity|].
    erewrite runTimers_fire; [|reflexivity | cbn; lia]. reflexivity.
  - intros tm Htm. rewrite Ht in Htm. done.
Qed.

(** *** The invariants of the data model *)

Lemma settledAfter_keeps s s' (x : T) :
  coherent s' ->
  (forall tm, timeoutRef s' = Some tm -> lastCommittedRef s' = lastCommittedRef s) ->
  lastCommittedRef s = x ->
  lastCommittedRef s' = settledAfter x s'.
Proof.
  unfold coherent, settledAfter. intros Hc Hk Hx.
  destruct (timeoutRef s') as [tm|]; [|exact Hc].
  rewrite (Hk tm eq_refl). exact Hx.
Qed.

Lemma pending_runTimers t s tm :
  timeoutRef (runTimers t s) = Some tm ->
  lastCommittedRef (runTimers t s) = lastCommittedRef s.
Proof.
  destruct (runTimers_cases t s) as [(-> & _)|(tm' & _ & -> & _)]; [done|].
  discriminate.
Qed.

Lemma pending_call o now c s tm :
  timeoutRef (call o now c s) = Some tm ->
  lastCommittedRef (call o now c s) = lastCommittedRef s.
Proof.
  destruct c as [v fh| | |v|]; cbn [call].
  - destruct (decide (v = present s)) as [Hv|Hv]; [by rewrite set_same|].
    destruct (fh || noDebounce o) eqn:Hf.
    + by rewrite set_commit.
    + apply orb_false_elim in Hf as [-> Hnd]. by rewrite set_schedule.
  - destruct (past s) as [|y l _] eqn:Hp using rev_ind.
    + by rewrite undo_nil.
    + by rewrite (undo_snoc s l y Hp).
  - destruct (future s) as [|y l] eqn:Hf.
    + by rewrite redo_nil.
    + by rewrite (redo_cons s y l Hf).
  - discriminate.
  - done.
Qed.

Lemma watch_run o (v : T) evs :
  (foldl (watch o) (useUndoRedo v, v) evs).1 = run o (useUndoRedo v) evs /\
  lastCommittedRef (run o (useUndoRedo v) evs) = lastSettled o v evs.
Proof.
  unfold lastSettled.
  induction evs as [|e evs [IHs IHx]] using rev_ind; [done|].
  rewrite foldl_snoc, run_snoc.
  destruct (foldl (watch o) (useUndoRedo v, v) evs) as [s x]. cbn in IHs, IHx.
  subst s. unfold watch, step. cbn [fst snd]. split; [reflexivity|].
  pose proof (coherent_run o _ evs (coherent_start v)) as Hc.
  apply (settledAfter_keeps (runTimers e.1 (run o (useUndoRedo v) evs))).
  - by apply coherent_call, coherent_runTimers.
  - apply pending_call.
  - apply (settledAfter_keeps (run o (useUndoRedo v) evs)).
    + by apply coherent_runTimers.
    + apply pending_runTimers.
    + exact IHx.
Qed.

(** C3, as amended: in every reachable state [lastCommittedRef] is the value
    the buffer showed the last time no debounced commit was pending; so it
    is the value shown whenever none is pending (and a pending commit is
    for the value shown).  As long as nothing was appended to [past] since
    the buffer was initialised or reset, it is the value of that
    initialisation or reset. *)
Theorem lastCommitted_invariant o (v : T) evs :
  lastCommittedRef (run o (useUndoRedo v) evs) = lastSettled o v evs /\
  coherent (run o (useUndoRedo v) evs) /\
  untouched (audit o v evs).
Proof.
  split; [apply watch_run|]. split.
  - apply coherent_run, coherent_start.
  - apply untouched_audit.
Qed.

(** C4, as amended: in every reachable state every value stored in [past]
    or [future] was committed at some point, or was the uncommitted
    [present] that an [undo] or [redo] moved into a stack while its debounced
    commit was pending; on a buffer without debounce no value is ever moved
    that way. *)
Theorem stacks_accounted o (v : T) evs :
  Forall (known (audit o v evs))
    (past (hook (audit o v evs)) ++ future (hook (audit o v evs))) /\
  (noDebounce o = true -> stacksCommitted (audit o v evs)).
Proof.
  destruct (accounted_audit o v evs) as (_ & Hp & Hf & _).
  assert (Hall : Forall (known (audit o v evs))
    (past (hook (audit o v evs)) ++ future (hook (audit o v evs))))
    by (apply Forall_app; done).
  split; [exact Hall|].
  intros Hnd. destruct (idle_audit o v evs Hnd) as [_ Hd].
  unfold stacksCommitted. eapply Forall_impl; [exact Hall|].
  intros x [Hx|Hx]; [exact Hx|]. rewrite Hd in Hx. by apply elem_of_nil in Hx.
Qed.

End facts.

(** *** The properties on buffers of strings *)

Local Open Scope string_scope.

Lemma undo_spec_witness :
  undo (useUndoRedo "a") = useUndoRedo "a" /\
  timeoutRef (undo (set {| debounce := Some 800 |} 0 "ab" false
                      (set {| debounce := Some 800 |} 0 "a" true (useUndoRedo "")))) = None /\
  future (undo (set {| debounce := Some 800 |} 0 "ab" false
                  (set {| debounce := Some 800 |} 0 "a" true (useUndoRedo "")))) = ["ab"].
Proof.
  split.
  - apply (proj1 (undo_spec (useUndoRedo "a"))). reflexivity.
  - pose proof (proj2 (undo_spec (set {| debounce := Some 800 |} 0 "ab" false
        (set {| debounce := Some 800 |} 0 "a" true (useUndoRedo "")))) [] "a" eq_refl)
      as (Ht & Hf & _).
    split; [exact Ht | exact Hf].
Defined.

Lemma undo_redo_roundtrip_witness :
  past (run {| debounce := None |} (useUndoRedo "") [(0, CallSet "a" false)]) <> [] /\
  present (redo (undo (run {| debounce := None |} (useUndoRedo "") [(0, CallSet "a" false)])))
    = "a" /\
  past (redo (undo (run {| debounce := None |} (useUndoRedo "") [(0, CallSet "a" false)])))
    = ["a"].
Proof.
  assert (Hne : past (run {| debounce := None |} (useUndoRedo "")
                        [(0, CallSet "a" false)]) <> []) by (vm_compute; discriminate).
  split; [exact Hne|].
  destruct (undo_redo_roundtrip _ Hne) as (Hpr & Hpa & _).
  split; [rewrite Hpr | rewrite Hpa]; reflexivity.
Defined.

(** C2 fails on the code: a forced set appends to [past] the value it sets,
    not the value shown before it.  After forced sets of ["a"] and ["ab"] on
    a fresh buffer, [past] is [["a"; "ab"]]: the first undo shows ["ab"]
    again, the second shows ["a"] and empties [past], and the initial value
    is never shown; further undos change nothing. *)
Theorem undo_after_forced_sets_misses_initial :
  past (run {| debounce := None |} (useUndoRedo "")
          (forcedSets [(0, "a"); (10, "ab")])) = ["a"; "ab"] /\
  present (run {| debounce := None |} (useUndoRedo "")
          (forcedSets [(0, "a"); (10, "ab")])) = "ab" /\
  present (Nat.iter 1 undo (run {| debounce := None |} (useUndoRedo "")
          (forcedSets [(0, "a"); (10, "ab")]))) = "ab" /\
  present (Nat.iter 2 undo (run {| debounce := None |} (useUndoRedo "")
          (forcedSets [(0, "a"); (10, "ab")]))) = "a" /\
  past (Nat.iter 2 undo (run {| debounce := None |} (useUndoRedo "")
          (forcedSets [(0, "a"); (10, "ab")]))) = [] /\
  Nat.iter 3 undo (run {| debounce := None |} (useUndoRedo "")
          (forcedSets [(0, "a"); (10, "ab")]))
    = Nat.iter 2 undo (run {| debounce := None |} (useUndoRedo "")
          (forcedSets [(0, "a"); (10, "ab")])).
Proof. repeat split. Qed.

(** C5 fails on the code: the burst is coalesced into one entry, but the
    entry is the last value set, not the value shown before the burst.
    With a debounce of 800, plain sets of ["a"], ["ab"], ["abc"] at 0, 300
    and 900 on a fresh buffer append nothing while the burst lasts and
    leave [past = ["abc"]] once 800 have passed after the last of them. *)
Theorem debounced_burst_pushes_last_value :
  past (run {| debounce := Some 800 |} (useUndoRedo "")
          (plainSets [(0, "a"); (300, "ab"); (900, "abc")])) = [] /\
  past (runTimers (900 + 800)
          (run {| debounce := Some 800 |} (useUndoRedo "")
             (plainSets [(0, "a"); (300, "ab"); (900, "abc")]))) = ["abc"] /\
  present (runTimers (900 + 800)
          (run {| debounce := Some 800 |} (useUndoRedo "")
             (plainSets [(0, "a"); (300, "ab"); (900, "abc")]))) = "abc".
Proof. repeat split. Qed.


Lemma plain_set_keeps_future_witness :
  future (set {| debounce := Some 800 |} 5 "b" false
            (undo (set {| debounce := Some 800 |} 0 "a" true (useUndoRedo "")))) = ["a"] /\
  future (runTimers 805 (set {| debounce := Some 800 |} 5 "b" false
            (undo (set {| debounce := Some 800 |} 0 "a" true (useUndoRedo ""))))) = [].
Proof.
  destruct (plain_set_keeps_future {| debounce := Some 800 |} 800 5 "b"
              (undo (set {| debounce := Some 800 |} 0 "a" true (useUndoRedo ""))))
    as (Hf & _ & _ & _ & Hfire).
  - reflexivity.
  - lia.
  - vm_compute. discriminate.
  - split; [rewrite Hf; reflexivity | apply Hfire; lia].
Defined.

(** C3, as the specification words it, fails: [redo] appends the value
    shown to [past] and stores the entry it takes from [future] in
    [lastCommittedRef].  After forced sets of ["a"] and ["b"], two undos and
    one redo, the value appended last is ["a"] (it is the one entry of
    [past]) while [lastCommittedRef] is ["b"]. *)
Lemma lastCommitted_not_lastPushed :
  past (hook (audit {| debounce := None |} ""
     [(0, CallSet "a" true); (1, CallSet "b" true); (2, CallUndo); (3, CallUndo);
      (4, CallRedo)])) = ["a"] /\
  lastPushed (audit {| debounce := None |} ""
     [(0, CallSet "a" true); (1, CallSet "b" true); (2, CallUndo); (3, CallUndo);
      (4, CallRedo)]) = Some "a" /\
  lastCommittedRef (hook (audit {| debounce := None |} ""
     [(0, CallSet "a" true); (1, CallSet "b" true); (2, CallUndo); (3, CallUndo);
      (4, CallRedo)])) = "b" /\
  ~ lastCommittedIsLastPushed (audit {| debounce := None |} ""
     [(0, CallSet "a" true); (1, CallSet "b" true); (2, CallUndo); (3, CallUndo);
      (4, CallRedo)]).
Proof.
  split; [reflexivity|]. split; [reflexivity|]. split; [reflexivity|].
  vm_compute. discriminate.
Qed.

(** C4, as the specification words it, fails: an [undo] made while a
    debounced commit is pending moves the uncommitted [present] into
    [future]. *)
Lemma future_holds_uncommitted :
  future (hook (audit {| debounce := Some 800 |} ""
            [(0, CallSet "a" true); (100, CallSet "ab" false); (200, CallUndo)])) = ["ab"] /\
  committed (audit {| debounce := Some 800 |} ""
            [(0, CallSet "a" true); (100, CallSet "ab" false); (200, CallUndo)]) = [""; "a"] /\
  ~ stacksCommitted (audit {| debounce := Some 800 |} ""
            [(0, CallSet "a" true); (100, CallSet "ab" false); (200, CallUndo)]).
Proof.
  split; [reflexivity|]. split; [reflexivity|].
  unfold stacksCommitted.
  change (~ Forall (fun v => v ∈ [""; "a"]) ["ab"]).
  rewrite Forall_singleton, !elem_of_cons, elem_of_nil.
  intros [Hx|[Hx|[]]]; discriminate.
Qed.

End HistoryFacts.

(** ** Further properties of the history buffer *)

Module HistoryMore.

Import UndoRedo HistoryFacts.

Section more.
Context {T : Type} `{EqDecision T}.
Implicit Types (s : Hook T) (o : UndoRedoOptions) (v w x : T) (f : list T).

Lemma hook_eq s s' :
  present s = present s' -> past s = past s' -> future s = future s' ->
  lastCommittedRef s = lastCommittedRef s' -> timeoutRef s = timeoutRef s' ->
  s = s'.
Proof. destruct s, s'. cbn. by intros -> -> -> -> ->. Qed.

Lemma timeline_redo s : timeline (redo s) = timeline s.
Proof.
  destruct (future s) as [|y l] eqn:Hf.
  - by rewrite redo_nil.
  - rewrite (redo_cons s y l Hf). unfold timeline. rewrite Hf. cbn.
    by rewrite <- app_assoc.
Qed.

(** X1: [redo] leaves the state as it is when [future] is empty; otherwise,
    with [future = x :: f], it clears the pending timer, appends the current
    [present] to [past], makes [x] the new [present], keeps [f] as [future] and
    stores [x] in [lastCommittedRef]. *)
Theorem redo_spec s :
  (future s = [] -> redo s = s) /\
  (forall x f, future s = x :: f ->
     timeoutRef (redo s) = None /\
     past (redo s) = past s ++ [present s] /\
     present (redo s) = x /\
     future (redo s) = f /\
     lastCommittedRef (redo s) = x).
Proof.
  split.
  - apply redo_nil.
  - intros x f Hf. rewrite (redo_cons s x f Hf). cbn. repeat split.
Qed.

(** X2: when [future] is not empty, [redo] followed at once by [undo] gives
    back the [present], the [past] and the [future] the buffer had before. *)
Theorem redo_undo_roundtrip s :
  future s <> [] ->
  present (undo (redo s)) = present s /\
  past (undo (redo s)) = past s /\
  future (undo (redo s)) = future s.
Proof.
  intros Hne. destruct (future s) as [|y l] eqn:Hf; [contradiction|].
  rewrite (redo_cons s y l Hf).
  erewrite undo_snoc by reflexivity. cbn. repeat split.
Qed.

(** X3: on a buffer with no commit pending whose [lastCommittedRef] is the
    value shown, [undo] then [redo] (with [past] not empty) and [redo] then
    [undo] (with [future] not empty) give back the whole state, the two
    refs included. *)
Theorem settled_roundtrip s :
  timeoutRef s = None -> lastCommittedRef s = present s ->
  (past s <> [] -> redo (undo s) = s) /\
  (future s <> [] -> undo (redo s) = s).
Proof.
  intros Ht Hl. split; intros Hne.
  - destruct (past s) as [|y l _] eqn:Hp using rev_ind; [contradiction|].
    rewrite (undo_snoc s l y Hp). erewrite redo_cons by reflexivity.
    apply hook_eq; cbn; congruence.
  - destruct (future s) as [|y l] eqn:Hf; [contradiction|].
    rewrite (redo_cons s y l Hf). erewrite undo_snoc by reflexivity.
    apply hook_eq; cbn; congruence.
Qed.

(** X4: whatever sequence of undo and redo presses is made, the values of
    [past], [present] and [future], read in that order, stay the same list:
    walking the history never drops, duplicates or reorders a value. *)
Theorem moves_keep_timeline s (ms : list Move) :
  timeline (moves s ms) = timeline s.
Proof.
  induction ms as [|m ms IH] using rev_ind; [reflexivity|].
  unfold moves. rewrite foldl_snoc. fold (moves s ms).
  destruct m; cbn [move]; [rewrite timeline_undo | rewrite timeline_redo];
    exact IH.
Qed.

(** X5: [canUndo] is false exactly when [undo] changes nothing, and
    [canRedo] is false exactly when [redo] changes nothing. *)
Theorem disabled_iff_noop s :
  (canUndo s = false <-> undo s = s) /\ (canRedo s = false <-> redo s = s).
Proof.
  split; split.
  - intros Hc. apply undo_nil. destruct (past s) as [|y l] eqn:Hp; [done|].
    rewrite canUndo_true in Hc; [discriminate | by rewrite Hp].
  - intros Hu. destruct (past s) as [|y l _] eqn:Hp using rev_ind.
    + unfold canUndo. by rewrite Hp.
    + rewrite (undo_snoc s l y Hp) in Hu. apply (f_equal past) in Hu.
      cbn in Hu. rewrite Hp in Hu. apply (f_equal length) in Hu.
      rewrite length_app in Hu. cbn in Hu. lia.
  - intros Hc. apply redo_nil. destruct (future s) as [|y l] eqn:Hf; [done|].
    unfold canRedo in Hc. rewrite Hf in Hc. cbn in Hc. discriminate.
  - intros Hr. destruct (future s) as [|y l] eqn:Hf.
    + by apply canRedo_false.
    + rewrite (redo_cons s y l Hf) in Hr. apply (f_equal future) in Hr.
      cbn in Hr. rewrite Hf in Hr. apply (f_equal length) in Hr.
      cbn in Hr. lia.
Qed.

(** X6: [reset] forgets everything: whatever calls were made and whatever
    timer was scheduled before [reset v], the run continues as on a buffer
    freshly created with [v]. *)
Theorem reset_forgets o s v (t : Z) (evs1 evs2 : list (Event T)) :
  run o s (evs1 ++ (t, CallReset v) :: evs2) = run o (useUndoRedo v) evs2.
Proof.
  unfold run. rewrite foldl_app. reflexivity.
Qed.


(** X8: on a buffer with a positive debounce interval, a forced set made
    while the commit of a plain set is pending cancels that commit: [past]
    grows by one entry only, the value of the forced set itself, the value
    of the plain set is recorded nowhere, and no later timer changes the
    state. *)
Theorem forced_set_replaces_pending o d (t1 t2 : Z) w v s :
  debounce o = Some d -> 0 < d -> w <> present s -> v <> w ->
  set o t2 v true (set o t1 w false s) =
    {| present := v; past := past s ++ [v]; future := [];
       lastCommittedRef := v; timeoutRef := None |} /\
  (forall t, runTimers t (set o t2 v true (set o t1 w false s)) =
             set o t2 v true (set o t1 w false s)).
Proof.
  intros Hd Hpos Hw Hv.
  destruct (positive_debounce o d Hd Hpos) as [Hnd _].
  rewrite (set_schedule o t1 w s Hw Hnd).
  rewrite set_commit by done. split; [reflexivity|].
  intros t. reflexivity.
Qed.

(** X9: on a buffer without debounce (option absent or [0]) no timer is
    ever pending and [lastCommittedRef] is always the value shown. *)
Theorem no_debounce_always_settled o v evs :
  noDebounce o = true ->
  timeoutRef (run o (useUndoRedo v) evs) = None /\
  lastCommittedRef (run o (useUndoRedo v) evs) = present (run o (useUndoRedo v) evs).
Proof.
  intros Hnd. destruct (idle_audit o v evs Hnd) as [Ht _].
  rewrite hook_audit in Ht. split; [exact Ht|].
  pose proof (coherent_run o _ evs (coherent_start v)) as Hc.
  unfold coherent in Hc. by rewrite Ht in Hc.
Qed.

(** X10: a scheduled commit runs at most once: letting the event loop run
    at [t] and again at a later [t'] is the same as letting it run at [t']. *)
Theorem timer_fires_once (t t' : Z) s :
  t <= t' -> runTimers t' (runTimers t s) = runTimers t' s.
Proof.
  intros Hle. destruct (timeoutRef s) as [tm|] eqn:Ht.
  - destruct (decide (due tm <= t)) as [Hd|Hd].
    + rewrite (runTimers_fire t tm s Ht Hd).
      rewrite (runTimers_fire t' tm s Ht) by lia.
      by apply runTimers_idle.
    + by rewrite (runTimers_early t tm s Ht) by lia.
  - by rewrite (runTimers_idle t s Ht).
Qed.

End more.

Local Open Scope string_scope.

Lemma redo_spec_witness :
  redo (useUndoRedo "a") = useUndoRedo "a" /\
  present (redo (undo (set {| debounce := None |} 0 "a" true (useUndoRedo "")))) = "a".
Proof.
  split.
  - apply (proj1 (redo_spec (useUndoRedo "a"))). reflexivity.
  - pose proof (proj2 (redo_spec
        (undo (set {| debounce := None |} 0 "a" true (useUndoRedo "")))) "a" [] eq_refl)
      as (_ & _ & Hp & _).
    exact Hp.
Defined.

Lemma redo_undo_roundtrip_witness :
  future (undo (set {| debounce := None |} 0 "a" true (useUndoRedo ""))) = ["a"] /\
  present (undo (redo (undo (set {| debounce := None |} 0 "a" true (useUndoRedo ""))))) = "a".
Proof.
  split; [reflexivity|].
  destruct (redo_undo_roundtrip
              (undo (set {| debounce := None |} 0 "a" true (useUndoRedo ""))))
    as (Hp & _); [vm_compute; discriminate|].
  rewrite Hp. reflexivity.
Defined.

Lemma settled_roundtrip_witness :
  redo (undo (set {| debounce := None |} 0 "a" true (useUndoRedo "")))
    = set {| debounce := None |} 0 "a" true (useUndoRedo "").
Proof.
  apply (settled_roundtrip (set {| debounce := None |} 0 "a" true (useUndoRedo ""))).
  - reflexivity.
  - reflexivity.
  - vm_compute. discriminate.
Defined.

Lemma forced_set_replaces_pending_witness :
  past (set {| debounce := Some 800 |} 100 "b" true
          (set {| debounce := Some 800 |} 0 "a" false (useUndoRedo ""))) = ["b"].
Proof.
  destruct (forced_set_replaces_pending {| debounce := Some 800 |} 800 0 100
              "a" "b" (useUndoRedo "")) as [Heq _].
  - reflexivity.
  - lia.
  - vm_compute. discriminate.
  - discriminate.
  - rewrite Heq. reflexivity.
Defined.

Lemma no_debounce_always_settled_witness :
  timeoutRef (run {| debounce := Some 0 |} (useUndoRedo "")
                [(0, CallSet "a" false); (5, CallUndo)]) = None.
Proof.
  apply (no_debounce_always_settled {| debounce := Some 0 |} ""
           [(0, CallSet "a" false); (5, CallUndo)]).
  reflexivity.
Defined.

Lemma timer_fires_once_witness :
  runTimers 900 (runTimers 850 (set {| debounce := Some 800 |} 0 "a" false (useUndoRedo "")))
    = runTimers 900 (set {| debounce := Some 800 |} 0 "a" false (useUndoRedo "")).
Proof. apply timer_fires_once. lia. Defined.

End HistoryMore.

(** ** Properties of the request guard *)

Module GuardFacts.

Import UndoRedo App.

Local Open Scope string_scope.

(** The token of a request is the clock reading at the time it is issued. *)
Lemma triggerCleaning_token now text a requestId :
  (triggerCleaning now text a).2 = Some requestId ->
  requestId = now /\ lastRequestTime (triggerCleaning now text a).1 = requestId.
Proof.
  unfold triggerCleaning. destruct (negb (truthy (trim text))); cbn.
  - discriminate.
  - intros [= <-]. split; reflexivity.
Qed.

(** Tokens follow the clock: they grow when it has advanced between two
    requests, and only then. *)
Lemma tokens_follow_clock now1 now2 text1 text2 a1 a2 id1 id2 :
  (triggerCleaning now1 text1 a1).2 = Some id1 ->
  (triggerCleaning now2 text2 a2).2 = Some id2 ->
  (now1 < now2 <-> id1 < id2) /\ (now1 = now2 <-> id1 = id2).
Proof.
  intros [-> _]%triggerCleaning_token [-> _]%triggerCleaning_token. tauto.
Qed.

(** C8 fails on the code: two requests issued within the same millisecond
    get the same token, so the earlier one still passes the guard; when it
    settles last, its result replaces the result of the later request. *)
Theorem same_millisecond_same_token :
  (triggerCleaning 1000 "first" initial).2 = Some 1000 /\
  (triggerCleaning 1000 "second" (triggerCleaning 1000 "first" initial).1).2
    = Some 1000 /\
  present (output
    (triggerCleaning_resume 1000 "" 1300 (Resolved "result of first")
       (triggerCleaning_resume 1000 "" 1200 (Resolved "result of second")
          (triggerCleaning 1000 "second"
             (triggerCleaning 1000 "first" initial).1).1)))
    = "result of first".
Proof. repeat split. Qed.

(** C9: issuing a request changes neither history buffer, and the
    continuation of a request whose promise was rejected changes neither
    buffer in whatever state it runs; so a request that fails leaves
    [present], [past] and [future] as they were before it was issued. *)
Theorem failure_leaves_buffers now text a requestId seen now' message a' :
  output (triggerCleaning now text a).1 = output a /\
  input (triggerCleaning now text a).1 = input a /\
  output (triggerCleaning_resume requestId seen now' (Rejected message) a') = output a' /\
  input (triggerCleaning_resume requestId seen now' (Rejected message) a') = input a' /\
  output (triggerCleaning_resume requestId seen now' (Rejected message)
            (triggerCleaning now text a).1) = output a.
Proof.
  assert (Hissue : output (triggerCleaning now text a).1 = output a /\
                   input (triggerCleaning now text a).1 = input a).
  { unfold triggerCleaning. destruct (negb (truthy (trim text))); split; reflexivity. }
  assert (Hfail : forall b,
    output (triggerCleaning_resume requestId seen now' (Rejected message) b) = output b /\
    input (triggerCleaning_resume requestId seen now' (Rejected message) b) = input b).
  { intros b. unfold triggerCleaning_resume.
    destruct (decide (lastRequestTime b = requestId)) as [Hb|Hb]; cbn.
    - destruct (decide (lastRequestTime b = requestId)); [|contradiction].
      split; reflexivity.
    - destruct (decide (lastRequestTime b = requestId)); [contradiction|].
      split; reflexivity. }
  destruct Hissue as [Ho Hi]. destruct (Hfail a') as [Ho' Hi'].
  repeat split; try assumption.
  rewrite (proj1 (Hfail _)). exact Ho.
Qed.

End GuardFacts.

(** ** Further properties of the application and of the service *)

Module AppMore.

Import UndoRedo App GeminiService HistoryFacts.

Local Open Scope string_scope.

Lemma truthy_true s : truthy s = true <-> s <> "".
Proof. destruct s; cbn; split; try done. Qed.

Lemma trimStart_blank s : blank (trimStart s) = blank s.
Proof.
  induction s as [|c r IH]; [reflexivity|]. cbn.
  destruct (isWhiteSpace c) eqn:Hc; [exact IH|]. cbn. by rewrite Hc.
Qed.

Lemma trimEnd_empty s : trimEnd s = "" <-> blank s = true.
Proof.
  induction s as [|c r IH]; [done|]. cbn.
  destruct (trimEnd r) as [|c' r'] eqn:Hr.
  - rewrite (proj1 IH eq_refl), andb_true_r.
    destruct (isWhiteSpace c); split; done.
  - split; [done|]. intros [_ Hb]%andb_prop. by apply IH in Hb.
Qed.

Lemma trim_blank s : truthy (trim s) = negb (blank s).
Proof.
  unfold trim. rewrite <- trimStart_blank.
  destruct (trimEnd (trimStart s)) as [|c r] eqn:Ht.
  - apply trimEnd_empty in Ht. by rewrite Ht.
  - destruct (blank (trimStart s)) eqn:Hb; [|done].
    apply trimEnd_empty in Hb. congruence.
Qed.

Lemma set_closure_commit o (seen v : string) now (s : Hook string) :
  v <> seen ->
  set_closure o seen now v true s =
    {| present := v; past := (past s ++ [v])%list; future := [];
       lastCommittedRef := v; timeoutRef := None |}.
Proof.
  intros Hv. unfold set_closure.
  destruct (decide (v = seen)); [contradiction | reflexivity].
Qed.

Lemma resume_stale requestId seen now r a :
  lastRequestTime a <> requestId ->
  triggerCleaning_resume requestId seen now r a = a.
Proof.
  intros Hne. unfold triggerCleaning_resume.
  destruct r; destruct (decide (lastRequestTime a = requestId)); try contradiction;
    destruct (decide (lastRequestTime a = requestId)); done.
Qed.

Lemma triggerCleaning_issues now text a :
  blank text = false ->
  triggerCleaning now text a =
    ({| input := input a; output := output a; isCleaning := true;
        error := None; lastRequestTime := now |}, Some now).
Proof.
  intros Hb. unfold triggerCleaning. rewrite trim_blank, Hb. reflexivity.
Qed.

(** X11: a text made of white space only issues no request and changes
    nothing, so a request in flight stays the current one; any other text
    issues a request whose token is the clock reading, raises [isCleaning]
    and clears [error]. *)
Theorem blank_text_no_request now text a :
  (blank text = true -> triggerCleaning now text a = (a, None)) /\
  (blank text = false ->
     (triggerCleaning now text a).2 = Some now /\
     lastRequestTime (triggerCleaning now text a).1 = now /\
     isCleaning (triggerCleaning now text a).1 = true /\
     error (triggerCleaning now text a).1 = None).
Proof.
  split; intros Hb.
  - unfold triggerCleaning. rewrite trim_blank, Hb. reflexivity.
  - rewrite (triggerCleaning_issues now text a Hb). repeat split.
Qed.

(** X12: once a request with another token has been issued, the
    continuation of the earlier request changes nothing, however its
    promise settled: no output, no error message, and [isCleaning] stays
    raised for the later request. *)
Theorem superseded_result_discarded now1 now2 text2 seen t r a :
  now1 <> now2 -> blank text2 = false ->
  triggerCleaning_resume now1 seen t r (triggerCleaning now2 text2 a).1
    = (triggerCleaning now2 text2 a).1 /\
  isCleaning (triggerCleaning_resume now1 seen t r (triggerCleaning now2 text2 a).1)
    = true.
Proof.
  intros Hne Hb. rewrite (triggerCleaning_issues now2 text2 a Hb). cbn [fst].
  rewrite resume_stale by (cbn; congruence). split; reflexivity.
Qed.

(** X13: when the promise of the current request is rejected, [error] is
    set to a message that is never empty (the message of the error, or the
    fixed fallback), [isCleaning] is lowered and the token stays. *)
Theorem current_failure_reported requestId seen now message a :
  lastRequestTime a = requestId ->
  error (triggerCleaning_resume requestId seen now (Rejected message) a)
    = Some (errorMessage message) /\
  errorMessage message <> "" /\
  isCleaning (triggerCleaning_resume requestId seen now (Rejected message) a) = false /\
  lastRequestTime (triggerCleaning_resume requestId seen now (Rejected message) a)
    = requestId.
Proof.
  intros Hid. unfold triggerCleaning_resume.
  destruct (decide (lastRequestTime a = requestId)); [|contradiction]. cbn.
  destruct (decide (lastRequestTime a = requestId)); [|contradiction]. cbn.
  repeat split; try done.
  unfold errorMessage. destruct message as [m|]; [|discriminate].
  destruct m; cbn; discriminate.
Qed.

(** X14: when the promise of the current request resolves with a text other
    than the output its [setOutput] saw, the output shows that text and the
    commit appends that same text to [past] (so [canUndo] holds, nothing
    can be redone, and an undo made at once still shows the text);
    [isCleaning] is lowered and [error] is left as it was.  When it
    resolves with the text its [setOutput] saw, the output buffer is left
    as it was. *)
Theorem current_success_applied requestId seen now cleaned a :
  lastRequestTime a = requestId ->
  (cleaned <> seen ->
     present (output (triggerCleaning_resume requestId seen now (Resolved cleaned) a))
       = cleaned /\
     past (output (triggerCleaning_resume requestId seen now (Resolved cleaned) a))
       = (past (output a) ++ [cleaned])%list /\
     canUndo (output (triggerCleaning_resume requestId seen now (Resolved cleaned) a))
       = true /\
     canRedo (output (triggerCleaning_resume requestId seen now (Resolved cleaned) a))
       = false /\
     present (undo (output
         (triggerCleaning_resume requestId seen now (Resolved cleaned) a)))
       = cleaned) /\
  (cleaned = seen ->
     output (triggerCleaning_resume requestId seen now (Resolved cleaned) a) = output a) /\
  isCleaning (triggerCleaning_resume requestId seen now (Resolved cleaned) a) = false /\
  error (triggerCleaning_resume requestId seen now (Resolved cleaned) a) = error a.
Proof.
  intros Hid. unfold triggerCleaning_resume.
  destruct (decide (lastRequestTime a = requestId)); [|contradiction]. cbn.
  destruct (decide (lastRequestTime a = requestId)); [|contradiction]. cbn.
  split; [|split; [|done]].
  - intros Hne. rewrite (set_closure_commit outputOptions seen cleaned now _ Hne).
    cbn. split; [done|]. split; [done|]. split; [|split; [done|]].
    + apply canUndo_true. cbn. by destruct (past (output a)).
    + by erewrite undo_snoc by reflexivity.
  - intros ->. unfold set_closure.
    destruct (decide (seen = seen)); [reflexivity | contradiction].
Qed.

Lemma forced_blank_shows_empty o now (h : Hook string) :
  present (set o now "" true h) = "".
Proof.
  destruct (decide ("" = present h)) as [Hv|Hv].
  - by rewrite set_same.
  - by rewrite set_commit.
Qed.

Lemma handleClear_input now a :
  present (input a) <> "" ->
  input (handleClear now a) =
    {| present := ""; past := (past (input a) ++ [""])%list;
       future := []; lastCommittedRef := ""; timeoutRef := None |}.
Proof.
  intros Hne. unfold handleClear. rewrite (proj2 (truthy_true _) Hne). cbn.
  by rewrite (set_commit inputOptions now "" true (input a)).
Qed.

(** X15: [handleClear] does nothing while the input is empty; otherwise it
    empties the input with a commit that appends the empty string to
    [past], empties [future] and cancels the pending timer; it leaves the
    output showing the empty string, clears [error], and touches neither
    the token of the request guard nor [isCleaning]. *)
Theorem handleClear_effect now a :
  (present (input a) = "" -> handleClear now a = a) /\
  (present (input a) <> "" ->
     present (input (handleClear now a)) = "" /\
     past (input (handleClear now a))
       = (past (input a) ++ [""])%list /\
     future (input (handleClear now a)) = [] /\
     timeoutRef (input (handleClear now a)) = None /\
     present (output (handleClear now a)) = "" /\
     error (handleClear now a) = None /\
     lastRequestTime (handleClear now a) = lastRequestTime a /\
     isCleaning (handleClear now a) = isCleaning a).
Proof.
  unfold handleClear. split.
  - intros ->. reflexivity.
  - intros Hne. fold (handleClear now a).
    rewrite (handleClear_input now a Hne). cbn.
    do 4 (split; [reflexivity|]).
    unfold handleClear. rewrite (proj2 (truthy_true _) Hne). cbn.
    repeat split. apply forced_blank_shows_empty.
Qed.

(** X16: an [undo] on the input right after [handleClear] does not bring
    the cleared text back: the entry the clear appended is the empty string
    itself, so the input still shows the empty string, [past] is as it was
    before the clear and [future] holds the empty string. *)
Theorem handleClear_undo now a :
  present (input a) <> "" ->
  present (undo (input (handleClear now a))) = "" /\
  past (undo (input (handleClear now a))) = past (input a) /\
  future (undo (input (handleClear now a))) = [""].
Proof.
  intros Hne. rewrite (handleClear_input now a Hne).
  erewrite undo_snoc by reflexivity. cbn. repeat split.
Qed.

(** X17: when the input it saw is blank, the timer of the auto-clean effect
    issues no request and leaves the request guard, [isCleaning], [error]
    and the input as they are; when the output it saw was not empty the
    output is emptied with a commit that appends the empty string to
    [past], and it is left as it is otherwise.  When the
    input it saw is not blank it does what [triggerCleaning] does. *)
Theorem autoClean_blank_input seenInput seenOutput now a :
  (blank seenInput = true ->
     (autoCleanTimer seenInput seenOutput now a).2 = None /\
     lastRequestTime (autoCleanTimer seenInput seenOutput now a).1 = lastRequestTime a /\
     isCleaning (autoCleanTimer seenInput seenOutput now a).1 = isCleaning a /\
     error (autoCleanTimer seenInput seenOutput now a).1 = error a /\
     input (autoCleanTimer seenInput seenOutput now a).1 = input a /\
     (seenOutput <> "" ->
        present (output (autoCleanTimer seenInput seenOutput now a).1) = "" /\
        past (output (autoCleanTimer seenInput seenOutput now a).1)
          = (past (output a) ++ [""])%list) /\
     (seenOutput = "" -> (autoCleanTimer seenInput seenOutput now a).1 = a)) /\
  (blank seenInput = false ->
     autoCleanTimer seenInput seenOutput now a = triggerCleaning now seenInput a).
Proof.
  unfold autoCleanTimer. rewrite trim_blank. split; intros Hb; rewrite Hb; cbn;
    [|reflexivity].
  destruct seenOutput as [|c r]; cbn.
  - repeat split; done.
  - repeat split; try done; intros _;
      by rewrite (set_closure_commit outputOptions (String c r) "" now).
Qed.

(** X18: toggling an option twice gives back the options; a toggle negates
    the option it names and leaves the other three as they are; two toggles
    commute. *)
Theorem toggleOption_laws (k k' : Key) (o : CleaningOptions) :
  toggleOption k (toggleOption k o) = o /\
  flag k (toggleOption k o) = negb (flag k o) /\
  (k <> k' -> flag k' (toggleOption k o) = flag k' o) /\
  toggleOption k (toggleOption k' o) = toggleOption k' (toggleOption k o).
Proof.
  destruct o as [a b c d]. split; [|split; [|split]].
  - destruct k; cbn; by rewrite negb_involutive.
  - by destruct k.
  - intros Hne. by destruct k, k'.
  - by destruct k, k'.
Qed.

(** X19: the list of rules holds the rule of an option exactly when the
    option is on (rule 1 for [normalizeSpaces], rule 2 for
    [removeBlankLines], rule 3 for [fixBrokenLines], rule 4 for
    [removeSpecialChars]); the rules come in the fixed order 1 to 4 without
    repetition, each with its fixed number, so there are as many rules as
    options that are on. *)
Theorem rules_follow_options (o : CleaningOptions) :
  (rule1 ∈ rules o <-> normalizeSpaces o = true) /\
  (rule2 ∈ rules o <-> removeBlankLines o = true) /\
  (rule3 ∈ rules o <-> fixBrokenLines o = true) /\
  (rule4 ∈ rules o <-> removeSpecialChars o = true) /\
  sublist (rules o) [rule1; rule2; rule3; rule4] /\
  NoDup (rules o) /\
  length (rules o) =
    length (filter (fun k => flag k o = true)
              [KNormalizeSpaces; KRemoveBlankLines; KFixBrokenLines; KRemoveSpecialChars]).
Proof.
  assert (Hin : forall (r : string) (l : list string),
            r ∈ l <-> bool_decide (r ∈ l) = true)
    by (intros r l; symmetry; apply bool_decide_eq_true).
  assert (Hnd : forall l : list string, bool_decide (NoDup l) = true -> NoDup l)
    by (intros l; apply bool_decide_eq_true).
  destruct o as [[] [] [] []]; cbn [normalizeSpaces removeBlankLines
    fixBrokenLines removeSpecialChars];
  (split; [rewrite Hin; vm_compute; split; congruence|]);
  (split; [rewrite Hin; vm_compute; split; congruence|]);
  (split; [rewrite Hin; vm_compute; split; congruence|]);
  (split; [rewrite Hin; vm_compute; split; congruence|]);
  (split; [cbn; repeat (first [apply sublist_skip | apply sublist_cons
                              | apply sublist_nil])|]);
  (split; [apply Hnd; vm_compute; reflexivity | reflexivity]).
Qed.

Lemma not_blank_sent text :
  blank text = false ->
  negb (truthy text) || (String.length (trim text) =? 0)%nat = false.
Proof.
  intros Hb. pose proof (trim_blank text) as Ht. rewrite Hb in Ht. cbn in Ht.
  destruct text as [|c r]; [discriminate|]. cbn [truthy negb orb].
  destruct (trim (String c r)); [discriminate | reflexivity].
Qed.

(** X20: for a blank text the service resolves with the empty string
    whatever the API would do; for any other text it resolves with the text
    of the response (the empty string when the response has none), and when
    the API rejects it rejects with its one fixed message.  The options
    have no part in how the promise settles. *)
Theorem service_outcomes text (o : CleaningOptions) :
  (blank text = true -> forall api, cleanTextWithGemini text o api = Resolved "") /\
  (blank text = false ->
     (forall x, cleanTextWithGemini text o (ApiResponse (Some x)) = Resolved x) /\
     cleanTextWithGemini text o (ApiResponse None) = Resolved "" /\
     cleanTextWithGemini text o ApiRejects = Rejected (Some failureMessage)).
Proof.
  unfold cleanTextWithGemini. split; intros Hb.
  - intros api. pose proof (trim_blank text) as Ht. rewrite Hb in Ht. cbn in Ht.
    destruct (trim text); [|discriminate]. cbn. by rewrite orb_true_r.
  - rewrite (not_blank_sent text Hb). repeat split. intros x. by destruct x.
Qed.

(** X21: a request for a text that is not blank, still the current one when
    the API rejects, ends with [error] holding the fixed message of the
    service (the fallback message of [App] is not used), [isCleaning]
    lowered, and both history buffers as they were. *)
Theorem rejected_request_end_to_end now text (o : CleaningOptions) seen now' a :
  blank text = false ->
  error (triggerCleaning_resume now seen now' (cleanTextWithGemini text o ApiRejects)
           (triggerCleaning now text a).1) = Some failureMessage /\
  isCleaning (triggerCleaning_resume now seen now' (cleanTextWithGemini text o ApiRejects)
           (triggerCleaning now text a).1) = false /\
  output (triggerCleaning_resume now seen now' (cleanTextWithGemini text o ApiRejects)
           (triggerCleaning now text a).1) = output a /\
  input (triggerCleaning_resume now seen now' (cleanTextWithGemini text o ApiRejects)
           (triggerCleaning now text a).1) = input a.
Proof.
  intros Hb. rewrite (triggerCleaning_issues now text a Hb). cbn [fst].
  unfold cleanTextWithGemini. rewrite (not_blank_sent text Hb).
  unfold triggerCleaning_resume. cbn.
  destruct (decide (now = now)); [|contradiction]. cbn.
  destruct (decide (now = now)); [|contradiction]. cbn. repeat split.
Qed.

Lemma superseded_result_discarded_witness :
  blank " second " = false /\
  output (triggerCleaning_resume 1000 "" 1500 (Resolved "result of first")
            (triggerCleaning 1200 " second " initial).1) = useUndoRedo "".
Proof.
  split; [reflexivity|].
  destruct (superseded_result_discarded 1000 1200 " second " "" 1500
              (Resolved "result of first") initial) as [Heq _].
  - lia.
  - reflexivity.
  - rewrite Heq. reflexivity.
Defined.

Lemma current_failure_reported_witness :
  error (triggerCleaning_resume 1000 "" 1500 (Rejected (Some ""))
           (triggerCleaning 1000 "text" initial).1) = Some "Terjadi kesalahan sistem.".
Proof.
  destruct (current_failure_reported 1000 "" 1500 (Some "")
              (triggerCleaning 1000 "text" initial).1) as [He _].
  - reflexivity.
  - rewrite He. reflexivity.
Defined.

Lemma current_success_applied_witness :
  present (output (triggerCleaning_resume 1000 "" 1500 (Resolved "clean")
                     (triggerCleaning 1000 "text" initial).1)) = "clean".
Proof.
  destruct (current_success_applied 1000 "" 1500 "clean"
              (triggerCleaning 1000 "text" initial).1) as [Hs _].
  - reflexivity.
  - destruct Hs as [Hp _]; [discriminate | exact Hp].
Defined.

Lemma handleClear_undo_witness :
  present (undo (input (handleClear 50
     (withInput (set inputOptions 0 "typed" true (useUndoRedo "")) initial)))) = "" /\
  past (undo (input (handleClear 50
     (withInput (set inputOptions 0 "typed" true (useUndoRedo "")) initial))))
    = ["typed"].
Proof.
  destruct (handleClear_undo 50
     (withInput (set inputOptions 0 "typed" true (useUndoRedo "")) initial))
    as (Hp & Hpa & _).
  - vm_compute. discriminate.
  - split; [exact Hp | rewrite Hpa; reflexivity].
Defined.

Lemma rejected_request_end_to_end_witness :
  error (triggerCleaning_resume 1000 "" 1500
           (cleanTextWithGemini "some text" defaultOptions ApiRejects)
           (triggerCleaning 1000 "some text" initial).1) = Some failureMessage.
Proof.
  destruct (rejected_request_end_to_end 1000 "some text" defaultOptions "" 1500 initial)
    as [He _].
  - reflexivity.
  - exact He.
Defined.

End AppMore.
